(** * parse_words.py: word segmentation with a prefix trie and a memoised search

    A shallow embedding of [src/parse_words.py] (the recursive solution:
    [ChainNull]/[ChainLink], [add_to_prefix_trie], [make_prefix_trie],
    [prefixes_of], [solution_recursive] with its cached inner function
    [recur]), the properties of it that the specification states, and
    further properties of the code (the last part of the file).
    [solution_regex_inefficient] is not embedded: what it returns is decided
    by the matching engine of the module [re] on a pattern in which the
    words are pattern syntax.

    Conventions of the embedding.
    - A Python [str] is a list of characters, [str := list ascii]; iterating
      a [str] yields its characters one by one.
    - A trie is a Python [dict] with two kinds of keys: the key [''] holds
      the word that ends at the node (a [str]), every other key is one
      character and holds the child [dict].  [for letter in word] only
      produces one-character strings, so the two kinds never collide; the
      embedding keeps them in two fields, [word] (the entry under ['']) and
      [edges] (the one-character entries, a finite map).
    - [add_to_prefix_trie] mutates the dictionary in place.  A trie is a
      tree (no node is shared), so the mutation is modelled by rebuilding
      the path from the root.
    - A [Set[str]] is iterated in an order that Python does not fix; the
      [words] argument is the list of the words in the order in which the
      iteration produces them.
    - [functools.cache] is a dictionary from the argument [index] to the
      value returned; it is threaded through [recur] as explicit state.
    - The interpreter stack is not bounded; a recursion that never returns
      is a computation for which no amount of fuel yields a result. *)

From Stdlib Require Import Ascii String.
From stdpp Require Import gmap strings list fin_maps sorting.

Open Scope list_scope.

(** ** Strings *)

Definition str : Type := list ascii.

(** [lit "abc"] is the Python literal ['abc']. *)
Definition lit (s : string) : str := list_ascii_of_string s.

(** [sep.join(parts)] *)
Fixpoint join (sep : str) (parts : list str) : str :=
  match parts with
  | [] => []
  | [p] => p
  | p :: rest => p ++ sep ++ join sep rest
  end.

(** ** Exceptions and outcomes of a call *)

Inductive exn : Type :=
| NameError   (* a name that is not defined is evaluated *)
| TypeError.  (* [str.join] is given an object that is not iterable *)

Inductive outcome (A : Type) : Type :=
| Return (a : A)
| Raise (e : exn).
Arguments Return {A} a.
Arguments Raise {A} e.

(** ** Chains: singly linked lists *)

Inductive Chain : Type :=
| ChainNull
| ChainLink (value : str) (suffix : Chain).

(** [ChainLink.EMPTY = ChainNull()] *)
Definition EMPTY : Chain := ChainNull.

Definition prepend (value : str) (chain : Chain) : Chain :=
  ChainLink value chain.

(** [ChainLink.__iter__]: yield [chain.value] and move to [chain.suffix]
    until the chain is [ChainLink.EMPTY]. *)
Fixpoint ChainLink_iter (chain : Chain) : list str :=
  match chain with
  | ChainNull => []
  | ChainLink value suffix => value :: ChainLink_iter suffix
  end.

(** [iter(chain)], as [str.join] calls it.  Only [ChainLink] defines
    [__iter__]; the class [ChainNull] has an empty body, so an instance of
    it is not iterable. *)
Definition iter (chain : Chain) : outcome (list str) :=
  match chain with
  | ChainNull => Raise TypeError
  | ChainLink _ _ => Return (ChainLink_iter chain)
  end.

(** ** Prefix tries *)

#[local] Unset Elimination Schemes.
Inductive dict : Type :=
| Dict (word : option str) (edges : gmap ascii dict).
#[local] Set Elimination Schemes.

Definition word (trie : dict) : option str :=
  match trie with Dict w _ => w end.

Definition edges (trie : dict) : gmap ascii dict :=
  match trie with Dict _ e => e end.

(** [{}] *)
Definition empty_dict : dict := Dict None ∅.

(** The loop of [add_to_prefix_trie] over the remaining [letters] of the
    word, from the node [trie] the cursor is at; at the end of the letters
    the node gets [trie[''] = word]. *)
Fixpoint add_letters (trie : dict) (letters : str) (w : str) : dict :=
  match letters with
  | [] => Dict (Some w) (edges trie)
  | letter :: rest =>
      match edges trie !! letter with
      | Some value =>
          Dict (word trie) (<[letter := add_letters value rest w]> (edges trie))
      | None =>
          Dict (word trie)
               (<[letter := add_letters empty_dict rest w]> (edges trie))
      end
  end.

Definition add_to_prefix_trie (trie : dict) (w : str) : dict :=
  add_letters trie w w.

Definition make_prefix_trie (words : list str) : dict :=
  fold_left add_to_prefix_trie words empty_dict.

(** The value of [trie.get('')] as a list of yields: one if it is not
    [None]. *)
Definition yield_word (trie : dict) : list str :=
  match word trie with
  | Some prefix => [prefix]
  | None => []
  end.

(** The [for letter in text] loop of [prefixes_of]. *)
Fixpoint prefixes_loop (text : str) (trie : dict) : list str :=
  match text with
  | [] => []
  | letter :: rest =>
      match edges trie !! letter with
      | None => []
      | Some trie' => yield_word trie' ++ prefixes_loop rest trie'
      end
  end.

(** The values the generator [prefixes_of(text, trie)] yields, in order. *)
Definition prefixes_of (text : str) (trie : dict) : list str :=
  yield_word trie ++ prefixes_loop text trie.

(** ** The cached search *)

(** The state of [functools.cache] around [recur]: [cache] maps an argument
    to the value the body returned for it ([None] is cached like any other
    value).  [computed] is a ghost field, kept for the analysis only: the
    arguments for which the body of [recur] was run to completion, most
    recent first. *)
Record memo : Type := Memo {
  cache : gmap nat (option Chain);
  computed : list nat
}.

Definition empty_memo : memo := Memo ∅ [].

Definition store (index : nat) (result : option Chain) (m : memo) : memo :=
  Memo (<[index := result]> (cache m)) (index :: computed m).

(** A call either returns a value and the new state of the cache, or has no
    result within the fuel it was given. *)
Definition call (A : Type) : Type := option (A * memo).

(** The [for prefix in prefixes_of(current_text, trie)] loop of [recur];
    [rec] is the cached function the body calls. *)
Fixpoint try_prefixes (rec : nat → memo → call (option Chain))
    (index : nat) (prefixes : list str) (m : memo) : call (option Chain) :=
  match prefixes with
  | [] => Some (None, m)
  | prefix :: rest =>
      match rec (index + length prefix) m with
      | None => None
      | Some (Some suffix_solution, m') =>
          Some (Some (prepend prefix suffix_solution), m')
      | Some (None, m') => try_prefixes rec index rest m'
      end
  end.

Section Recur.
Variables (text : str) (trie : dict).

(** The body of [recur], with [rec] for the recursive calls. *)
Definition recur_body (rec : nat → memo → call (option Chain))
    (index : nat) (m : memo) : call (option Chain) :=
  let current_text := drop index text in
  match current_text with
  | [] => Some (Some EMPTY, m)
  | _ :: _ => try_prefixes rec index (prefixes_of current_text trie) m
  end.

(** [recur] behind [functools.cache]: a hit returns the cached value; a
    miss runs the body and caches what it returns.  [fuel] bounds the
    depth of the recursion. *)
Fixpoint recur (fuel : nat) (index : nat) (m : memo)
    {struct fuel} : call (option Chain) :=
  match fuel with
  | 0 => None
  | S fuel' =>
      match cache m !! index with
      | Some result => Some (result, m)
      | None =>
          match recur_body (recur fuel') index m with
          | None => None
          | Some (result, m') => Some (result, store index result m')
          end
      end
  end.
End Recur.

(** [solution_recursive(text, words)].  The last two statements are
    [return Non], which evaluates a name that is not defined, and
    [return ' '.join(chain)]. *)
Definition solution_recursive (fuel : nat) (text : str) (words : list str)
    : option (outcome (option str)) :=
  let trie := make_prefix_trie words in
  match recur text trie fuel 0 empty_memo with
  | None => None
  | Some (None, _) => Some (Raise NameError)
  | Some (Some chain, _) =>
      match iter chain with
      | Raise e => Some (Raise e)
      | Return parts => Some (Return (Some (join (lit " ") parts)))
      end
  end.

(** The example of the [__main__] block. *)
Definition main_text : str := lit "ininisbarfish".
Definition main_words : list str :=
  map lit ["foo"; "bar"; "fish"; "h"; "is"; "ini"; "in"]%string.

(** * Vocabulary of the properties *)

(** The node reached from [trie] along [path], if every edge exists. *)
Fixpoint walk (trie : dict) (path : str) : option dict :=
  match path with
  | [] => Some trie
  | letter :: rest =>
      match edges trie !! letter with
      | None => None
      | Some trie' => walk trie' rest
      end
  end.

(** The word stored under [''] at the end of [path]. *)
Definition mark (trie : dict) (path : str) : option str :=
  walk trie path ≫= word.

(** All prefixes of a text, by increasing length. *)
Fixpoint inits (text : str) : list str :=
  match text with
  | [] => [[]]
  | letter :: rest => [] :: (cons letter <$> inits rest)
  end.

(** [ws] is a segmentation of [text] into words of [D]. *)
Definition segmentation (D : list str) (ws : list str) (text : str) : Prop :=
  Forall (λ w, w ∈ D) ws ∧ concat ws = text.

(** Strictly shorter. *)
Definition shorter (a b : str) : Prop := length a < length b.

(** What the value returned by [recur(index)] says about [text[index:]]:
    a chain is a segmentation of it, [None] says that it has none. *)
Definition result_ok (text : str) (D : list str) (index : nat)
    (result : option Chain) : Prop :=
  match result with
  | Some chain => segmentation D (ChainLink_iter chain) (drop index text)
  | None => ∀ ws, ¬ segmentation D ws (drop index text)
  end.

(** Every cached value is right. *)
Definition memo_ok (text : str) (D : list str) (m : memo) : Prop :=
  ∀ index result,
    cache m !! index = Some result → result_ok text D index result.

(** The ghost list [computed] lists the keys of the cache, each once. *)
Definition memo_wf (m : memo) : Prop :=
  NoDup (computed m) ∧ ∀ k, k ∈ computed m ↔ is_Some (cache m !! k).

(** A call for [index] adds to the cache only indices between [index] and
    the length of the text. *)
Definition frame (text : str) (index : nat) (m m' : memo) : Prop :=
  ∀ k, is_Some (cache m' !! k) →
       is_Some (cache m !! k) ∨ (index ≤ k ∧ k ≤ length text).

(** The chain of the example: [in], [in], [is], [bar], [fish]. *)
Definition main_chain : Chain :=
  ChainLink (lit "in") (ChainLink (lit "in") (ChainLink (lit "is")
    (ChainLink (lit "bar") (ChainLink (lit "fish") EMPTY)))).

(** The child of [trie] under [letter], or a new empty dictionary when
    [trie.get(letter)] is [None]: the node the cursor of
    [add_to_prefix_trie] moves to. *)
Definition child (trie : dict) (letter : ascii) : dict :=
  default empty_dict (edges trie !! letter).

(** The value [recur(0)] returns, for a call that starts with an empty
    cache. *)
Definition search (fuel : nat) (text : str) (D : list str)
    : option (option Chain) :=
  fst <$> recur text (make_prefix_trie D) fuel 0 empty_memo.

(** A chain for [text[index:]] that takes, at each position, the shortest
    word of [D] after which the rest of the text has a segmentation. *)
Fixpoint first_fit (text : str) (D : list str) (index : nat) (chain : Chain)
    : Prop :=
  match chain with
  | ChainNull => drop index text = []
  | ChainLink p suffix =>
      p ∈ D ∧ p `prefix_of` drop index text ∧ drop index text ≠ [] ∧
      (∀ q, q ∈ D → q `prefix_of` drop index text → length q < length p →
            ∀ ws, ¬ segmentation D ws (drop (index + length q) text)) ∧
      first_fit text D (index + length p) suffix
  end.

(** Every cached chain is the first fit. *)
Definition memo_first_fit (text : str) (D : list str) (m : memo) : Prop :=
  ∀ index chain,
    cache m !! index = Some (Some chain) → first_fit text D index chain.

(** [ws] comes before [ws'] when the two are equal or, at the first place
    where they differ, [ws] has the shorter word. *)
Definition earlier (ws ws' : list str) : Prop :=
  ws = ws' ∨
  ∃ common w w' rest rest',
    ws = common ++ w :: rest ∧ ws' = common ++ w' :: rest' ∧
    length w < length w'.

(** Every index in the cache is the end of a segmented part of the text. *)
Definition memo_reached (text : str) (D : list str) (m : memo) : Prop :=
  ∀ k, is_Some (cache m !! k) → ∃ ws, segmentation D ws (take k text).

(** * Properties *)

(** ** What a trie holds *)

Lemma mark_nil trie : mark trie [] = word trie.
Proof. reflexivity. Qed.

Lemma mark_cons trie letter path :
  mark trie (letter :: path) =
  match edges trie !! letter with
  | None => None
  | Some trie' => mark trie' path
  end.
Proof. unfold mark; simpl. by destruct (edges trie !! letter). Qed.

Lemma mark_empty_dict path : mark empty_dict path = None.
Proof. destruct path; [done|]. by rewrite mark_cons. Qed.

(** Adding a word puts it under [''] at the end of its letters and changes
    no other entry under ['']. *)
Lemma mark_add_letters trie letters w path :
  mark (add_letters trie letters w) path =
  if decide (path = letters) then Some w else mark trie path.
Proof.
  revert trie path.
  induction letters as [|letter rest IH]; intros trie path.
  - destruct path as [|c path]; cbn [add_letters].
    + by rewrite decide_True.
    + rewrite decide_False by done. by rewrite !mark_cons.
  - cbn [add_letters]. destruct path as [|c path].
    + rewrite decide_False by done.
      by destruct (edges trie !! letter).
    + rewrite (mark_cons trie).
      destruct (decide (c = letter)) as [->|Hne].
      * destruct (edges trie !! letter) as [value|] eqn:Hget;
          rewrite mark_cons; cbn [edges]; rewrite lookup_insert_eq, IH;
          [|rewrite mark_empty_dict];
          repeat case_decide; congruence.
      * rewrite decide_False by congruence.
        destruct (edges trie !! letter) as [value|] eqn:Hget;
          rewrite mark_cons; cbn [edges];
          by rewrite lookup_insert_ne.
Qed.

Lemma mark_add_to_prefix_trie trie w path :
  mark (add_to_prefix_trie trie w) path =
  if decide (path = w) then Some w else mark trie path.
Proof. apply mark_add_letters. Qed.

Lemma mark_fold_add words trie path :
  mark (fold_left add_to_prefix_trie words trie) path =
  if decide (path ∈ words) then Some path else mark trie path.
Proof.
  revert trie. induction words as [|w words IH]; intros trie;
    cbn [fold_left].
  - case_decide as Hin; [by apply elem_of_nil in Hin | done].
  - rewrite IH, mark_add_to_prefix_trie.
    destruct (decide (path ∈ words)) as [Hin|Hnin].
    + rewrite decide_True by (by right). done.
    + destruct (decide (path = w)) as [->|Hne].
      * rewrite decide_True by (by left). done.
      * rewrite decide_False; [done|]. by intros [?|?]%elem_of_cons.
Qed.

(** The words under [''] in the trie of a dictionary are the words of the
    dictionary, each at the end of its own letters. *)
Lemma mark_make_prefix_trie words path :
  mark (make_prefix_trie words) path =
  if decide (path ∈ words) then Some path else None.
Proof.
  unfold make_prefix_trie. rewrite mark_fold_add.
  by rewrite mark_empty_dict.
Qed.

Lemma omap_cons_eq {A B} (f : A → option B) (x : A) (l : list A) :
  omap f (x :: l) =
  match f x with Some y => y :: omap f l | None => omap f l end.
Proof. reflexivity. Qed.

Lemma omap_mark_cons trie letter (l : list str) :
  omap (mark trie) (cons letter <$> l) =
  match edges trie !! letter with
  | None => []
  | Some trie' => omap (mark trie') l
  end.
Proof.
  destruct (edges trie !! letter) as [trie'|] eqn:Hget;
    induction l as [|p l IHl]; try reflexivity;
    rewrite fmap_cons, !omap_cons_eq, mark_cons, Hget, IHl; reflexivity.
Qed.

(** The generator yields the entries under [''] met along the text. *)
Lemma prefixes_of_omap text trie :
  prefixes_of text trie = omap (mark trie) (inits text).
Proof.
  revert trie. induction text as [|letter rest IH]; intros trie.
  - unfold prefixes_of, yield_word. cbn [inits prefixes_loop].
    rewrite omap_cons_eq, mark_nil. by destruct (word trie).
  - unfold prefixes_of. cbn [inits prefixes_loop].
    rewrite omap_cons_eq, mark_nil, omap_mark_cons.
    assert (match edges trie !! letter with
            | Some trie' => yield_word trie' ++ prefixes_loop rest trie'
            | None => []
            end =
            match edges trie !! letter with
            | None => []
            | Some trie' => omap (mark trie') (inits rest)
            end) as ->.
    { destruct (edges trie !! letter) as [trie'|]; [|done]. apply IH. }
    unfold yield_word. by destruct (word trie).
Qed.

Lemma prefixes_of_make_prefix_trie text words :
  prefixes_of text (make_prefix_trie words) =
  filter (λ p, p ∈ words) (inits text).
Proof.
  rewrite prefixes_of_omap.
  induction (inits text) as [|p l IH]; [done|].
  rewrite omap_cons_eq, mark_make_prefix_trie, filter_cons.
  destruct (decide (p ∈ words)); by rewrite IH.
Qed.

(** ** The prefixes of a text *)

Lemma elem_of_inits (p text : str) : p ∈ inits text ↔ p `prefix_of` text.
Proof.
  revert p. induction text as [|letter rest IH]; intros p; cbn [inits].
  - rewrite list_elem_of_singleton. split.
    + intros ->. apply prefix_nil.
    + apply prefix_nil_inv.
  - rewrite elem_of_cons, list_elem_of_fmap. split.
    + intros [->|(q & -> & Hq)]; [apply prefix_nil|].
      apply prefix_cons. by apply IH.
    + destruct p as [|c p]; [by left|]. intros Hp. right.
      pose proof (prefix_cons_inv_1 _ _ _ _ Hp) as ->.
      exists p. split; [done|]. apply IH.
      by apply prefix_cons_inv_2 in Hp.
Qed.

Lemma StronglySorted_fmap_mono {A} (R : relation A) (f : A → A) l :
  (∀ a b, R a b → R (f a) (f b)) →
  StronglySorted R l → StronglySorted R (f <$> l).
Proof.
  intros Hf. induction 1 as [|a l Hl IH Ha]; [constructor|].
  rewrite fmap_cons. constructor; [done|].
  apply Forall_fmap. eapply Forall_impl; [exact Ha|]. intros b. apply Hf.
Qed.

Lemma StronglySorted_filter {A} (R : relation A) (P : A → Prop)
    `{!∀ x, Decision (P x)} l :
  StronglySorted R l → StronglySorted R (filter P l).
Proof.
  induction 1 as [|a l Hl IH Ha]; [constructor|].
  rewrite filter_cons. destruct (decide (P a)); [|done].
  constructor; [done|].
  apply Forall_forall. intros b [_ Hb]%list_elem_of_filter.
  by eapply Forall_forall in Ha.
Qed.

Lemma inits_sorted text : StronglySorted shorter (inits text).
Proof.
  induction text as [|letter rest IH]; cbn [inits].
  - repeat constructor.
  - constructor.
    + apply StronglySorted_fmap_mono; [|done].
      unfold shorter. intros a b. cbn [length]. lia.
    + apply Forall_fmap, Forall_forall. intros q _.
      unfold shorter, compose. cbn [length]. lia.
Qed.

(** The loop of [prefixes_of] returns at the first letter that has no
    edge: the letters after it add nothing to what was yielded. *)
Lemma prefixes_of_short_circuit trie (text : str) k node letter :
  walk trie (take k text) = Some node →
  text !! k = Some letter →
  edges node !! letter = None →
  prefixes_of text trie = prefixes_of (take k text) trie.
Proof.
  revert trie text. induction k as [|k IH]; intros trie text Hwalk Hk Hedge.
  - destruct text as [|c rest]; [done|].
    cbn in Hwalk, Hk. simplify_eq.
    unfold prefixes_of. cbn [take prefixes_loop]. by rewrite Hedge.
  - destruct text as [|c rest]; [done|].
    cbn [take walk] in Hwalk. cbn in Hk.
    unfold prefixes_of. cbn [take prefixes_loop].
    destruct (edges trie !! c) as [trie'|]; [|done].
    f_equal. apply (IH trie' rest Hwalk Hk Hedge).
Qed.

Lemma elem_of_prefixes_of (D : list str) (text p : str) :
  p ∈ prefixes_of text (make_prefix_trie D) ↔ p ∈ D ∧ p `prefix_of` text.
Proof.
  rewrite prefixes_of_make_prefix_trie, list_elem_of_filter.
  by rewrite elem_of_inits.
Qed.

Lemma drop_prefix_of (p text : str) i :
  p `prefix_of` drop i text → drop i text = p ++ drop (i + length p) text.
Proof.
  intros [k Hk]. rewrite <- drop_drop, Hk.
  by rewrite drop_app_length.
Qed.

Lemma prefix_of_drop_bound (p text : str) i :
  p `prefix_of` drop i text → p ≠ [] →
  i < i + length p ∧ i + length p ≤ length text.
Proof.
  intros Hp Hne. apply prefix_length in Hp. rewrite length_drop in Hp.
  destruct p; [done|]. cbn [length] in *. lia.
Qed.

(** ** The search is sound and complete *)

Section Search.
Variables (text : str) (D : list str).

Let trie := make_prefix_trie D.

Lemma memo_ok_empty : memo_ok text D empty_memo.
Proof. intros index result. cbn. by rewrite lookup_empty. Qed.

Lemma memo_ok_store index result m :
  result_ok text D index result → memo_ok text D m → memo_ok text D (store index result m).
Proof.
  intros Hr Hm j r. cbn. rewrite lookup_insert.
  case_decide; [|by apply Hm]. intros [= <-]. by subst.
Qed.

Lemma try_prefixes_ok rec index prefixes m result m' :
  (∀ j m0 r0 m1,
      memo_ok text D m0 → rec j m0 = Some (r0, m1) → result_ok text D j r0 ∧ memo_ok text D m1) →
  (∀ p, p ∈ prefixes → p ∈ D ∧ p `prefix_of` drop index text) →
  memo_ok text D m →
  try_prefixes rec index prefixes m = Some (result, m') →
  memo_ok text D m' ∧
  match result with
  | Some chain => segmentation D (ChainLink_iter chain) (drop index text)
  | None => ∀ p, p ∈ prefixes → result_ok text D (index + length p) None
  end.
Proof.
  intros Hrec. revert m.
  induction prefixes as [|p rest IH]; intros m Hps Hm Hrun.
  - cbn in Hrun. simplify_eq. split; [done|]. by intros p ?%elem_of_nil.
  - cbn [try_prefixes] in Hrun.
    destruct (rec (index + length p) m) as [[[suffix_solution|] m1]|]
      eqn:Hcall; [| |done].
    + simplify_eq. destruct (Hrec _ _ _ _ Hm Hcall) as [[Hws Hcat] Hm1].
      split; [done|]. destruct (Hps p) as [HpD Hpre]; [by left|].
      split; cbn [prepend ChainLink_iter].
      * by constructor.
      * cbn [concat]. rewrite Hcat. symmetry. by apply drop_prefix_of.
    + destruct (Hrec _ _ _ _ Hm Hcall) as [Hnone Hm1].
      destruct (IH m1) as [Hm' Hres]; [|done|done|].
      { intros q Hq. apply Hps. by right. }
      split; [done|]. destruct result as [chain|]; [done|].
      intros q [->|Hq]%elem_of_cons; [done|]. by apply Hres.
Qed.

Lemma recur_ok fuel index m result m' :
  memo_ok text D m →
  recur text trie fuel index m = Some (result, m') →
  result_ok text D index result ∧ memo_ok text D m'.
Proof.
  revert index m result m'.
  induction fuel as [|fuel IH]; intros index m result m' Hm Hrun; [done|].
  cbn [recur] in Hrun.
  destruct (cache m !! index) as [cached|] eqn:Hget.
  { simplify_eq. split; [by eapply Hm|done]. }
  destruct (recur_body text trie (recur text trie fuel) index m)
    as [[r m1]|] eqn:Hbody; [|done].
  simplify_eq. unfold recur_body in Hbody.
  destruct (drop index text) as [|c current] eqn:Hcur.
  - simplify_eq.
    assert (result_ok text D index (Some EMPTY)) as Hr.
    { cbn. rewrite Hcur. by split. }
    split; [done|]. by apply memo_ok_store.
  - rewrite <- Hcur in Hbody.
    apply try_prefixes_ok in Hbody as [Hm1 Hres]; [|exact IH| |done].
    2:{ intros p Hp. by apply elem_of_prefixes_of. }
    assert (result_ok text D index result) as Hr.
    { destruct result as [chain|]; [done|].
      intros ws [HwsD Hcat].
      destruct ws as [|w ws]; [by rewrite Hcur in Hcat|].
      apply Forall_cons in HwsD as [HwD HwsD]. cbn [concat] in Hcat.
      assert (w `prefix_of` drop index text) as Hpre by by eexists.
      apply (Hres w) with ws; [by apply elem_of_prefixes_of|].
      split; [done|].
      apply drop_prefix_of in Hpre. rewrite Hpre in Hcat.
      by apply app_inv_head in Hcat. }
    split; [done|]. by apply memo_ok_store.
Qed.
End Search.

(** ** The search returns, and runs the body once for an index *)

Section Termination.
Variables (text : str) (D : list str).
Hypothesis words_nonempty : ∀ w, w ∈ D → w ≠ [].

Let trie := make_prefix_trie D.

Lemma memo_wf_empty : memo_wf empty_memo.
Proof.
  split; [constructor|]. intros k. cbn. rewrite lookup_empty. split.
  - by intros ?%elem_of_nil.
  - by intros [? ?].
Qed.

Lemma memo_wf_store index result m :
  cache m !! index = None → memo_wf m → memo_wf (store index result m).
Proof.
  intros Hmiss [Hnd Hkeys]. split; cbn.
  - constructor; [|done]. rewrite Hkeys, Hmiss. by intros [? ?].
  - intros k. rewrite elem_of_cons, lookup_insert, Hkeys.
    destruct (decide (index = k)) as [->|Hne].
    + split; [by eauto|by left].
    + split; [intros [?|?]; [congruence|done]|by right].
Qed.

Lemma frame_refl index m : frame text index m m.
Proof. intros k ?. by left. Qed.

Lemma frame_trans i j m1 m2 m3 :
  i ≤ j → frame text i m1 m2 → frame text j m2 m3 → frame text i m1 m3.
Proof.
  intros Hij H12 H23 k Hk. destruct (H23 k Hk) as [Hk2|?]; [|right; lia].
  by apply H12.
Qed.

Lemma frame_store index result m :
  index ≤ length text → frame text index m (store index result m).
Proof.
  intros Hle k. cbn. rewrite lookup_insert.
  case_decide; subst; [by right|by left].
Qed.

Lemma try_prefixes_total rec index prefixes m :
  (∀ j m0, index < j → j ≤ length text → memo_wf m0 →
     ∃ r m1, rec j m0 = Some (r, m1) ∧ memo_wf m1 ∧ frame text j m0 m1) →
  (∀ p, p ∈ prefixes → p ≠ [] ∧ p `prefix_of` drop index text) →
  memo_wf m →
  ∃ result m',
    try_prefixes rec index prefixes m = Some (result, m') ∧
    memo_wf m' ∧ frame text (S index) m m'.
Proof.
  intros Hrec. revert m.
  induction prefixes as [|p rest IH]; intros m Hps Hwf.
  - exists None, m. split; [done|]. split; [done|]. apply frame_refl.
  - destruct (Hps p) as [Hne Hpre]; [by left|].
    destruct (prefix_of_drop_bound _ _ _ Hpre Hne) as [Hlt Hle].
    destruct (Hrec (index + length p) m Hlt Hle Hwf)
      as (r & m1 & Hcall & Hwf1 & Hfr1).
    assert (frame text (S index) m m1) as Hfr1'.
    { eapply frame_trans; [|apply frame_refl|exact Hfr1]. lia. }
    cbn [try_prefixes]. rewrite Hcall.
    destruct r as [suffix_solution|]; [by eauto|].
    destruct (IH m1) as (result & m' & Hrun & Hwf' & Hfr'); [|done|].
    { intros q Hq. apply Hps. by right. }
    exists result, m'. split; [done|]. split; [done|].
    by eapply frame_trans; [| |exact Hfr'].
Qed.

Lemma recur_total fuel index m :
  index ≤ length text → length text - index < fuel → memo_wf m →
  ∃ result m',
    recur text trie fuel index m = Some (result, m') ∧
    memo_wf m' ∧ frame text index m m'.
Proof.
  revert index m.
  induction fuel as [|fuel IH]; intros index m Hle Hfuel Hwf; [lia|].
  cbn [recur].
  destruct (cache m !! index) as [cached|] eqn:Hget.
  { exists cached, m. split; [done|]. split; [done|]. apply frame_refl. }
  unfold recur_body.
  destruct (drop index text) as [|c current] eqn:Hcur.
  - eexists _, _. split; [done|].
    split; [by apply memo_wf_store|by apply frame_store].
  - rewrite <- Hcur.
    destruct (try_prefixes_total (recur text trie fuel) index
                (prefixes_of (drop index text) trie) m)
      as (result & m1 & Hrun & Hwf1 & Hfr1); [| |done|].
    { intros j m0 Hj Hjle Hwf0. apply IH; [done|lia|done]. }
    { intros p [HpD Hpre]%elem_of_prefixes_of. split; [|done].
      by apply words_nonempty. }
    rewrite Hrun. eexists _, _. split; [done|].
    assert (cache m1 !! index = None) as Hmiss.
    { destruct (cache m1 !! index) eqn:Hget1; [|done].
      destruct (Hfr1 index) as [[? ?]|?]; [by eauto|congruence|lia]. }
    split; [by apply memo_wf_store|].
    eapply frame_trans; [| |by apply frame_store]; [done|].
    eapply frame_trans; [|apply frame_refl|exact Hfr1]. lia.
Qed.
End Termination.

(** ** More fuel, other tries *)

Lemma try_prefixes_mono rec rec' index prefixes m x :
  (∀ j m0 y, rec j m0 = Some y → rec' j m0 = Some y) →
  try_prefixes rec index prefixes m = Some x →
  try_prefixes rec' index prefixes m = Some x.
Proof.
  intros Hrec. revert m.
  induction prefixes as [|p rest IH]; intros m Hrun; [done|].
  cbn [try_prefixes] in *.
  destruct (rec (index + length p) m) as [[r m1]|] eqn:Hcall; [|done].
  rewrite (Hrec _ _ _ Hcall). destruct r; [done|]. by apply IH.
Qed.

(** A result does not depend on how much fuel was left over. *)
Lemma recur_fuel_mono text trie fuel fuel' index m x :
  fuel ≤ fuel' →
  recur text trie fuel index m = Some x →
  recur text trie fuel' index m = Some x.
Proof.
  revert fuel' index m x.
  induction fuel as [|fuel IH]; intros fuel' index m x Hle Hrun; [done|].
  destruct fuel' as [|fuel']; [lia|].
  cbn [recur] in *. destruct (cache m !! index); [done|].
  unfold recur_body in *. destruct (drop index text) as [|c current]; [done|].
  destruct (try_prefixes (recur text trie fuel) index
              (prefixes_of (c :: current) trie) m) as [y|] eqn:Hbody; [|done].
  erewrite try_prefixes_mono; [done| |exact Hbody].
  intros j m0 z. apply IH. lia.
Qed.

Lemma try_prefixes_ext rec rec' index prefixes m :
  (∀ j m0, rec j m0 = rec' j m0) →
  try_prefixes rec index prefixes m = try_prefixes rec' index prefixes m.
Proof.
  intros Hrec. revert m.
  induction prefixes as [|p rest IH]; intros m; [done|].
  cbn [try_prefixes]. rewrite Hrec.
  destruct (rec' (index + length p) m) as [[[?|] ?]|]; [done| |done].
  apply IH.
Qed.

(** The search sees the trie only through [prefixes_of]. *)
Lemma recur_ext text trie trie' fuel index m :
  (∀ t, prefixes_of t trie = prefixes_of t trie') →
  recur text trie fuel index m = recur text trie' fuel index m.
Proof.
  intros Htrie. revert index m.
  induction fuel as [|fuel IH]; intros index m; [done|].
  cbn [recur]. destruct (cache m !! index); [done|].
  unfold recur_body. destruct (drop index text) as [|c current]; [done|].
  rewrite Htrie. by rewrite (try_prefixes_ext _ _ _ _ _ IH).
Qed.

Lemma solution_recursive_fuel_mono fuel fuel' text words out :
  fuel ≤ fuel' →
  solution_recursive fuel text words = Some out →
  solution_recursive fuel' text words = Some out.
Proof.
  unfold solution_recursive. intros Hle Hrun.
  destruct (recur text (make_prefix_trie words) fuel 0 empty_memo)
    as [x|] eqn:Hrec; [|done].
  by rewrite (recur_fuel_mono _ _ _ _ _ _ _ Hle Hrec).
Qed.

(** The trie of a dictionary answers every prefix query by the set of its
    words alone, whatever the order they were added in. *)
Lemma prefixes_of_same_words text (D D' : list str) :
  (∀ w, w ∈ D ↔ w ∈ D') →
  prefixes_of text (make_prefix_trie D) =
  prefixes_of text (make_prefix_trie D').
Proof.
  intros HD. rewrite !prefixes_of_make_prefix_trie.
  by apply list_filter_iff.
Qed.

(** ** What [solution_recursive] does in each case *)

(** A chain that spells a text with at least one character has a link. *)
Lemma iter_of_segmentation D chain (text : str) :
  segmentation D (ChainLink_iter chain) text → text ≠ [] →
  iter chain = Return (ChainLink_iter chain).
Proof. intros [_ Hcat] Hne. destruct chain; [by cbn in Hcat|done]. Qed.

(** The search from index 0 with an empty cache, for a dictionary of words
    that are not empty: it returns, what it returns is right, and the cache
    it leaves is the one [memo_wf] and [frame] describe. *)
Lemma recur_from_start (text : str) (D : list str) fuel :
  Forall (λ w : str, w ≠ []) D → length text < fuel →
  ∃ result m,
    recur text (make_prefix_trie D) fuel 0 empty_memo = Some (result, m) ∧
    result_ok text D 0 result ∧ memo_wf m ∧ frame text 0 empty_memo m.
Proof.
  intros Hne Hfuel. rewrite Forall_forall in Hne.
  destruct (recur_total text D Hne fuel 0 empty_memo)
    as (result & m & Hrun & Hwf & Hfr); [lia|lia|apply memo_wf_empty|].
  exists result, m. split; [done|].
  destruct (recur_ok text D fuel 0 empty_memo result m) as [Hr _];
    [apply memo_ok_empty|done|done].
Qed.

(** A text of at least one character that has a segmentation: the call
    returns the words of a segmentation, joined by single spaces. *)
Lemma solution_recursive_found (text : str) (D ws : list str) fuel :
  Forall (λ w : str, w ≠ []) D → text ≠ [] → segmentation D ws text →
  length text < fuel →
  ∃ ws', solution_recursive fuel text D =
           Some (Return (Some (join (lit " ") ws'))) ∧
         segmentation D ws' text.
Proof.
  intros HD Hne Hws Hfuel.
  destruct (recur_from_start text D fuel HD Hfuel)
    as (result & m & Hrun & Hres & _).
  unfold solution_recursive. rewrite Hrun.
  destruct result as [chain|]; cbn in Hres; [|by destruct (Hres ws)].
  rewrite (iter_of_segmentation D chain text Hres Hne). by eauto.
Qed.

(** A symbol of the text that is in no word rules every segmentation out. *)
Lemma foreign_symbol_no_segmentation (D ws : list str) (text : str) c :
  c ∈ text → Forall (λ w : str, c ∉ w) D → ¬ segmentation D ws text.
Proof.
  intros Hc HD [Hws <-]. rewrite Forall_forall in HD, Hws.
  apply list_elem_of_In, in_concat in Hc as (w & Hw & Hcw).
  apply list_elem_of_In in Hw, Hcw. by apply (HD w (Hws w Hw)).
Qed.

(** The empty word of a dictionary is stored at the root of its trie, and
    is the first value a prefix query yields. *)
Lemma head_prefixes_of_empty_word (words : list str) (text : str) :
  [] ∈ words →
  word (make_prefix_trie words) = Some [] ∧
  head (prefixes_of text (make_prefix_trie words)) = Some [].
Proof.
  intros Hin.
  assert (word (make_prefix_trie words) = Some []) as Hword.
  { rewrite <- mark_nil, mark_make_prefix_trie. by rewrite decide_True. }
  split; [done|]. unfold prefixes_of, yield_word. by rewrite Hword.
Qed.

(** ** The example of [__main__], run *)

Example prefixes_of_main :
  prefixes_of main_text (make_prefix_trie main_words) = [lit "in"; lit "ini"].
Proof. vm_compute. reflexivity. Qed.

Example solution_recursive_main_run :
  solution_recursive 14 main_text main_words =
  Some (Return (Some (lit "in in is bar fish"))).
Proof. vm_compute. reflexivity. Qed.

Example solution_recursive_backtracks :
  solution_recursive 5 (lit "abcd") [lit "a"; lit "ab"; lit "cd"] =
  Some (Return (Some (lit "ab cd"))).
Proof. vm_compute. reflexivity. Qed.

(** * The properties of the specification *)

(** For a sequence of at least one word, each a non-empty word of the
    dictionary, the call on the concatenation returns words of the
    dictionary joined by spaces, and these words spell the text again. *)
Lemma round_trip_some_words (D ws : list str) fuel :
  Forall (λ w : str, w ≠ []) D → Forall (λ w, w ∈ D) ws → ws ≠ [] →
  length (concat ws) < fuel →
  ∃ ws', solution_recursive fuel (concat ws) D =
           Some (Return (Some (join (lit " ") ws'))) ∧
         Forall (λ w, w ∈ D) ws' ∧ concat ws' = concat ws.
Proof.
  intros HD Hws Hne Hfuel.
  destruct (solution_recursive_found (concat ws) D ws fuel)
    as (ws' & Hrun & Hseg' & Hcat'); [done| |done|done|by eauto].
  destruct ws as [|w ws]; [done|]. apply Forall_cons in Hws as [Hw _].
  rewrite Forall_forall in HD. specialize (HD w Hw).
  cbn [concat]. by destruct w.
Qed.

(** C1 (round trip), at the sequence of no words.  The empty sequence is a
    sequence of words of any dictionary and its concatenation is the empty
    text; the call on it does not return a success: [recur(0)] returns
    [ChainLink.EMPTY], an instance of [ChainNull], and [' '.join] raises
    [TypeError] on it.  For every sequence of at least one word the round
    trip holds ([round_trip_some_words]). *)
Theorem round_trip_no_words (D : list str) fuel :
  Forall (λ w, w ∈ D) [] ∧
  solution_recursive (S fuel) (concat []) D = Some (Raise TypeError).
Proof. split; [constructor|]. cbn [concat]. reflexivity. Qed.

(** C2 (no segmentation).  For a dictionary of non-empty words and a text
    that has no segmentation (in particular a text with a symbol that is in
    no word, [foreign_symbol_no_segmentation]), the call does not return
    the marker [None]: [recur(0)] returns [None], the call evaluates the
    undefined name [Non] and raises [NameError]. *)
Theorem no_segmentation_raises_NameError (D : list str) (text : str) fuel :
  Forall (λ w : str, w ≠ []) D → (∀ ws, ¬ segmentation D ws text) →
  length text < fuel →
  solution_recursive fuel text D = Some (Raise NameError).
Proof.
  intros HD Hnone Hfuel.
  destruct (recur_from_start text D fuel HD Hfuel)
    as (result & m & Hrun & Hres & _).
  unfold solution_recursive. rewrite Hrun.
  destruct result as [chain|]; [|done]. cbn in Hres. by destruct (Hnone _ Hres).
Qed.

Lemma no_segmentation_raises_NameError_xyz :
  solution_recursive 4 (lit "xyz") [lit "ab"; lit "cd"] =
  Some (Raise NameError).
Proof.
  apply (no_segmentation_raises_NameError [lit "ab"; lit "cd"] (lit "xyz") 4).
  - vm_compute. repeat constructor; discriminate.
  - intros ws. apply (foreign_symbol_no_segmentation _ _ _ "x"%char).
    + vm_compute. apply list_elem_of_here.
    + apply (bool_decide_unpack _). vm_compute. exact I.
  - vm_compute. lia.
Defined.

(** C3, at the dictionary [{"", "a"}].  The construction has no check of
    the words and no statement that can fail: it returns the complete
    index, with the empty word stored under [''] in the root. *)
Lemma make_prefix_trie_accepts_empty_word :
  make_prefix_trie [lit ""; lit "a"] =
  Dict (Some (lit "")) {[ "a"%char := Dict (Some (lit "a")) ∅ ]}.
Proof. vm_compute. reflexivity. Qed.

(** C3, as the code has it.  A dictionary with the empty string is
    accepted and the complete index is returned: the words stored in the
    trie are the words of the dictionary, the empty word is stored at the
    root, and a prefix query on any text yields it first. *)
Theorem make_prefix_trie_keeps_empty_word (words : list str) :
  [] ∈ words →
  word (make_prefix_trie words) = Some [] ∧
  (∀ w, mark (make_prefix_trie words) w = Some w ↔ w ∈ words) ∧
  (∀ text, head (prefixes_of text (make_prefix_trie words)) = Some []).
Proof.
  intros Hin. split; [|split].
  - by apply (head_prefixes_of_empty_word words []).
  - intros w. rewrite mark_make_prefix_trie.
    destruct (decide (w ∈ words)); [done|]. by split.
  - intros text. by apply head_prefixes_of_empty_word.
Qed.

Lemma make_prefix_trie_keeps_empty_word_example :
  word (make_prefix_trie [lit ""; lit "a"]) = Some [] ∧
  (∀ w, mark (make_prefix_trie [lit ""; lit "a"]) w = Some w ↔
        w ∈ [lit ""; lit "a"]) ∧
  (∀ text,
      head (prefixes_of text (make_prefix_trie [lit ""; lit "a"])) = Some []).
Proof.
  apply (make_prefix_trie_keeps_empty_word [lit ""; lit "a"]).
  vm_compute. apply list_elem_of_here.
Defined.

(** The dictionary [{"a"}] gives the trie with one edge. *)
Lemma make_prefix_trie_a :
  make_prefix_trie [lit "a"] =
  Dict None {[ "a"%char := Dict (Some (lit "a")) ∅ ]}.
Proof. vm_compute. reflexivity. Qed.

(** C4 (empty input).  For every dictionary the call on the empty text
    does not return the empty string: it raises [TypeError], because
    [ChainLink.EMPTY] is a [ChainNull] and has no [__iter__]. *)
Theorem empty_text_raises_TypeError (D : list str) fuel :
  solution_recursive (S fuel) (lit "") D = Some (Raise TypeError).
Proof.
  unfold solution_recursive.
  change (recur (lit "") (make_prefix_trie D) (S fuel) 0 empty_memo)
    with (Some (Some EMPTY, store 0 (Some EMPTY) empty_memo)).
  reflexivity.
Qed.

(** With the empty word in the dictionary, the search on a text of at
    least one character calls itself with the same index before anything
    is cached: no amount of fuel gives a result. *)
Lemma empty_word_search_never_returns (D : list str) (text : str) fuel :
  [] ∈ D → text ≠ [] → solution_recursive fuel text D = None.
Proof.
  intros Hin Hne. unfold solution_recursive.
  assert (∀ m, cache m !! 0 = None →
            recur text (make_prefix_trie D) fuel 0 m = None) as Hloop.
  { induction fuel as [|fuel IH]; intros m Hmiss; [done|].
    cbn [recur]. rewrite Hmiss. unfold recur_body. rewrite drop_0.
    destruct text as [|c rest]; [done|].
    destruct (head_prefixes_of_empty_word D (c :: rest) Hin) as [_ Hhead].
    destruct (prefixes_of (c :: rest) (make_prefix_trie D)) as [|p ps];
      [done|].
    cbn in Hhead. simplify_eq. cbn [try_prefixes length Nat.add].
    by rewrite (IH m Hmiss). }
  by rewrite Hloop.
Qed.

(** C5 (prefix query).  On the trie of a dictionary [D], the query on
    [text[position:]] yields exactly the words of [D] that are prefixes of
    [text[position:]], each once and by strictly increasing length; and
    when the walk reaches a node without an edge for the next symbol, what
    was yielded up to there is all that is yielded. *)
Theorem prefixes_of_make_prefix_trie_spec (D : list str) (text : str)
    (position : nat) :
  let current_text := drop position text in
  let trie := make_prefix_trie D in
  (∀ w, w ∈ prefixes_of current_text trie ↔
        w ∈ D ∧ w `prefix_of` current_text) ∧
  StronglySorted shorter (prefixes_of current_text trie) ∧
  (∀ k node letter,
      walk trie (take k current_text) = Some node →
      current_text !! k = Some letter →
      edges node !! letter = None →
      prefixes_of current_text trie = prefixes_of (take k current_text) trie).
Proof.
  cbn zeta. split; [|split].
  - intros w. apply elem_of_prefixes_of.
  - rewrite prefixes_of_make_prefix_trie.
    apply StronglySorted_filter, inits_sorted.
  - intros k node letter. apply prefixes_of_short_circuit.
Qed.


(** C6 (determinism).  Two calls on the same text and the same set of
    words return the same result, whatever the order in which each call
    iterates over the set: [recur(0)] returns the same chain (and leaves the
    same cache), and the call returns the same outcome.  Each call starts
    from its own empty cache. *)
Theorem solution_recursive_deterministic (text : str) (D D' : list str) fuel :
  (∀ w, w ∈ D ↔ w ∈ D') →
  recur text (make_prefix_trie D) fuel 0 empty_memo =
    recur text (make_prefix_trie D') fuel 0 empty_memo ∧
  solution_recursive fuel text D = solution_recursive fuel text D'.
Proof.
  intros HD.
  assert (recur text (make_prefix_trie D) fuel 0 empty_memo =
          recur text (make_prefix_trie D') fuel 0 empty_memo) as Hrec.
  { apply recur_ext. intros t. by apply prefixes_of_same_words. }
  split; [done|]. unfold solution_recursive. by rewrite Hrec.
Qed.

Lemma solution_recursive_deterministic_example :
  recur (lit "abab") (make_prefix_trie [lit "ab"; lit "a"; lit "b"]) 5 0
      empty_memo =
    recur (lit "abab")
      (make_prefix_trie [lit "b"; lit "ab"; lit "a"; lit "b"]) 5 0
      empty_memo ∧
  solution_recursive 5 (lit "abab") [lit "ab"; lit "a"; lit "b"] =
  solution_recursive 5 (lit "abab") [lit "b"; lit "ab"; lit "a"; lit "b"].
Proof.
  apply (solution_recursive_deterministic (lit "abab")
           [lit "ab"; lit "a"; lit "b"] [lit "b"; lit "ab"; lit "a"; lit "b"] 5).
  intros w. rewrite !elem_of_cons, !elem_of_nil. tauto.
Defined.

(** C7 (termination and memoisation).  For a dictionary of non-empty words
    the search from index 0 returns as soon as the fuel exceeds the length
    of the text.  Every word tried at an index leads to a larger index that
    is at most the length of the text; the body of [recur] is run at most
    once for an index, only for indices from 0 to the length of the text,
    hence at most [length text + 1] times. *)
Theorem recur_terminates_each_index_once (text : str) (D : list str) fuel :
  Forall (λ w : str, w ≠ []) D → length text < fuel →
  ∃ result m,
    recur text (make_prefix_trie D) fuel 0 empty_memo = Some (result, m) ∧
    NoDup (computed m) ∧
    Forall (λ k, k ≤ length text) (computed m) ∧
    length (computed m) ≤ length text + 1 ∧
    (∀ index p, p ∈ prefixes_of (drop index text) (make_prefix_trie D) →
                index < index + length p ∧ index + length p ≤ length text).
Proof.
  intros HD Hfuel.
  destruct (recur_from_start text D fuel HD Hfuel)
    as (result & m & Hrun & _ & [Hnd Hkeys] & Hfr).
  assert (∀ k, k ∈ computed m → k ≤ length text) as Hbound.
  { intros k Hk%Hkeys. destruct (Hfr k Hk) as [Hk0|?]; [|lia].
    cbn in Hk0. rewrite lookup_empty in Hk0. by destruct Hk0. }
  exists result, m. split; [done|]. split; [done|].
  split; [by apply Forall_forall|]. split.
  - assert (computed m ⊆+ seq 0 (S (length text))) as Hsub.
    { apply NoDup_submseteq; [done|]. intros k Hk%Hbound.
      apply elem_of_seq. lia. }
    apply submseteq_length in Hsub. rewrite length_seq in Hsub. lia.
  - intros index p [HpD Hpre]%elem_of_prefixes_of.
    apply prefix_of_drop_bound; [done|].
    rewrite Forall_forall in HD. by apply HD.
Qed.

Lemma recur_terminates_each_index_once_main :
  ∃ result m,
    recur main_text (make_prefix_trie main_words) 14 0 empty_memo =
      Some (result, m) ∧
    NoDup (computed m) ∧
    Forall (λ k, k ≤ length main_text) (computed m) ∧
    length (computed m) ≤ length main_text + 1 ∧
    (∀ index p,
        p ∈ prefixes_of (drop index main_text) (make_prefix_trie main_words) →
        index < index + length p ∧ index + length p ≤ length main_text).
Proof.
  apply (recur_terminates_each_index_once main_text main_words 14).
  - vm_compute. repeat constructor; discriminate.
  - vm_compute. lia.
Defined.

(** ** Adding a word again *)

Lemma add_letters_twice trie letters w :
  add_letters (add_letters trie letters w) letters w =
  add_letters trie letters w.
Proof.
  revert trie. induction letters as [|letter rest IH]; intros trie; [done|].
  cbn [add_letters].
  destruct (edges trie !! letter) as [value|]; cbn [edges word];
    by rewrite lookup_insert_eq, IH, insert_insert_eq.
Qed.

(** A word that is already at the end of its letters: adding it changes
    nothing. *)
Lemma add_letters_present trie letters w node :
  walk trie letters = Some node → word node = Some w →
  add_letters trie letters w = trie.
Proof.
  revert trie. induction letters as [|letter rest IH]; intros trie Hwalk Hw.
  - cbn in Hwalk. simplify_eq. destruct node as [? ?]. cbn in *. by subst.
  - cbn [walk add_letters] in *.
    destruct (edges trie !! letter) as [value|] eqn:Hget; [|done].
    rewrite (IH value Hwalk Hw), insert_id by done. by destruct trie.
Qed.

Lemma add_to_prefix_trie_present trie w :
  mark trie w = Some w → add_to_prefix_trie trie w = trie.
Proof.
  unfold mark. intros (node & Hwalk & Hw)%bind_Some.
  by eapply add_letters_present.
Qed.

(** C9 (idempotent insertion).  Adding a word to any trie a second time
    gives the trie that adding it once gave, and building a trie from
    words among which one occurs twice gives the trie built without the
    second occurrence.  Both functions are total: nothing is raised. *)
Theorem add_to_prefix_trie_idempotent :
  (∀ trie w,
      add_to_prefix_trie (add_to_prefix_trie trie w) w =
      add_to_prefix_trie trie w) ∧
  (∀ (before between after : list str) w,
      make_prefix_trie (before ++ w :: between ++ w :: after) =
      make_prefix_trie (before ++ w :: between ++ after)).
Proof.
  split.
  - intros trie w. apply add_letters_twice.
  - intros before between after w. unfold make_prefix_trie.
    rewrite !fold_left_app. cbn [fold_left]. rewrite !fold_left_app.
    cbn [fold_left]. f_equal. apply add_to_prefix_trie_present.
    rewrite mark_fold_add, mark_add_to_prefix_trie.
    destruct (decide (w ∈ between)); [done|]. by rewrite decide_True.
Qed.

(** C10 (words of the result).  When the call returns a string, the string
    is the join of the chain that [recur(0)] returned, every word of that
    chain is a word of the dictionary, and the words spell the text. *)
Theorem solution_recursive_words_in_dictionary (text : str) (D : list str)
    fuel (s : option str) :
  solution_recursive fuel text D = Some (Return s) →
  ∃ chain m,
    recur text (make_prefix_trie D) fuel 0 empty_memo = Some (Some chain, m) ∧
    s = Some (join (lit " ") (ChainLink_iter chain)) ∧
    Forall (λ w, w ∈ D) (ChainLink_iter chain) ∧
    concat (ChainLink_iter chain) = text.
Proof.
  unfold solution_recursive. intros Hrun.
  destruct (recur text (make_prefix_trie D) fuel 0 empty_memo)
    as [[[chain|] m]|] eqn:Hrec; [|done|done].
  destruct (recur_ok text D fuel 0 empty_memo (Some chain) m)
    as [[HD Hcat] _]; [apply memo_ok_empty|done|].
  exists chain, m. split; [done|].
  destruct chain as [|value suffix]; [done|]. cbn [iter] in Hrun.
  by simplify_eq.
Qed.

Lemma solution_recursive_words_in_dictionary_main :
  ∃ chain m,
    recur main_text (make_prefix_trie main_words) 14 0 empty_memo =
      Some (Some chain, m) ∧
    Some (lit "in in is bar fish") =
      Some (join (lit " ") (ChainLink_iter chain)) ∧
    Forall (λ w, w ∈ main_words) (ChainLink_iter chain) ∧
    concat (ChainLink_iter chain) = main_text.
Proof.
  apply (solution_recursive_words_in_dictionary
           main_text main_words 14 (Some (lit "in in is bar fish"))).
  vm_compute. reflexivity.
Defined.

(** C8 (the example of [__main__]).  For the seven words, in whatever
    order the set is iterated, and the text [ininisbarfish], [recur(0)]
    returns the chain [in in is bar fish], whose words spell the text, and
    the call returns these words joined by spaces. *)
Theorem solution_recursive_main (words : list str) fuel :
  (∀ w, w ∈ words ↔ w ∈ main_words) → length main_text < fuel →
  (∃ m, recur main_text (make_prefix_trie words) fuel 0 empty_memo =
          Some (Some main_chain, m)) ∧
  concat (ChainLink_iter main_chain) = main_text ∧
  solution_recursive fuel main_text words =
    Some (Return (Some (lit "in in is bar fish"))).
Proof.
  intros Hwords Hfuel.
  assert (14 ≤ fuel) as Hle by (cbn in Hfuel; lia).
  split; [|split; [done|]].
  - rewrite (recur_ext main_text _ (make_prefix_trie main_words))
      by (intros t; by apply prefixes_of_same_words).
    destruct (recur main_text (make_prefix_trie main_words) 14 0 empty_memo)
      as [[r m]|] eqn:Hrec; [|by vm_compute in Hrec].
    assert (r = Some main_chain) as ->.
    { apply (f_equal (fmap fst)) in Hrec. vm_compute in Hrec.
      injection Hrec as <-. reflexivity. }
    exists m. by apply (recur_fuel_mono _ _ 14).
  - transitivity (solution_recursive fuel main_text main_words).
    + unfold solution_recursive.
      rewrite (recur_ext main_text _ (make_prefix_trie main_words)); [done|].
      intros t. by apply prefixes_of_same_words.
    + by apply (solution_recursive_fuel_mono 14).
Qed.

Lemma solution_recursive_main_reversed :
  (∃ m, recur main_text (make_prefix_trie (reverse main_words)) 14 0
          empty_memo = Some (Some main_chain, m)) ∧
  concat (ChainLink_iter main_chain) = main_text ∧
  solution_recursive 14 main_text (reverse main_words) =
    Some (Return (Some (lit "in in is bar fish"))).
Proof.
  apply (solution_recursive_main (reverse main_words) 14).
  - intros w. apply elem_of_reverse.
  - vm_compute. lia.
Defined.


(** * Further properties of the code *)

(** ** The trie does not depend on the order of insertion *)

Lemma add_letters_cons trie letter rest w :
  add_letters trie (letter :: rest) w =
  Dict (word trie)
       (<[letter := add_letters (child trie letter) rest w]> (edges trie)).
Proof.
  cbn [add_letters]. unfold child. by destruct (edges trie !! letter).
Qed.

Lemma child_insert (w0 : option str) (e : gmap ascii dict) c c' v :
  child (Dict w0 (<[c := v]> e)) c' =
  if decide (c = c') then v else child (Dict w0 e) c'.
Proof.
  unfold child. cbn [edges]. rewrite lookup_insert.
  by destruct (decide (c = c')).
Qed.

Lemma add_letters_comm trie l1 w1 l2 w2 :
  (l1 = l2 → w1 = w2) →
  add_letters (add_letters trie l1 w1) l2 w2 =
  add_letters (add_letters trie l2 w2) l1 w1.
Proof.
  revert trie l2. induction l1 as [|c1 r1 IH]; intros trie l2 Hw.
  - destruct l2 as [|c2 r2].
    + by rewrite Hw.
    + rewrite !add_letters_cons. cbn [add_letters edges word]. done.
  - destruct l2 as [|c2 r2].
    + rewrite !add_letters_cons. cbn [add_letters edges word]. done.
    + rewrite !add_letters_cons. cbn [edges word].
      rewrite !child_insert. destruct trie as [w0 e]. cbn [word edges].
      destruct (decide (c1 = c2)) as [->|Hne].
      * rewrite decide_True by done. rewrite !insert_insert_eq.
        rewrite IH; [done|]. intros ->. by apply Hw.
      * rewrite decide_False by done.
        by rewrite insert_insert_ne.
Qed.

Lemma fold_add_comm (l : list str) trie w :
  fold_left add_to_prefix_trie l (add_to_prefix_trie trie w) =
  add_to_prefix_trie (fold_left add_to_prefix_trie l trie) w.
Proof.
  revert trie. induction l as [|x l IH]; intros trie; [done|].
  cbn [fold_left]. rewrite <- IH. f_equal.
  unfold add_to_prefix_trie. apply add_letters_comm. by intros ->.
Qed.

(** A word that occurs later in the list need not be added first. *)
Lemma fold_add_absorb (l : list str) trie w :
  w ∈ l →
  fold_left add_to_prefix_trie l (add_to_prefix_trie trie w) =
  fold_left add_to_prefix_trie l trie.
Proof.
  intros Hin. rewrite fold_add_comm. apply add_to_prefix_trie_present.
  rewrite mark_fold_add. by rewrite decide_True.
Qed.

Lemma fold_add_remove_dups (l : list str) trie :
  fold_left add_to_prefix_trie (remove_dups l) trie =
  fold_left add_to_prefix_trie l trie.
Proof.
  revert trie. induction l as [|x l IH]; intros trie; [done|].
  cbn [remove_dups fold_left]. destruct (decide_rel elem_of x l) as [Hin|Hnin].
  - by rewrite IH, fold_add_absorb.
  - cbn [fold_left]. apply IH.
Qed.

Lemma fold_add_Permutation (l l' : list str) trie :
  l ≡ₚ l' →
  fold_left add_to_prefix_trie l trie = fold_left add_to_prefix_trie l' trie.
Proof.
  intros Hperm. revert trie.
  induction Hperm as [|x l l' _ IH|x y l|l l' l'' _ IH1 _ IH2]; intros trie.
  - done.
  - cbn [fold_left]. apply IH.
  - cbn [fold_left]. f_equal.
    unfold add_to_prefix_trie. apply add_letters_comm. by intros ->.
  - by rewrite IH1.
Qed.

(** X1.  Two words can be added to any trie in either order, and a word
    can be added before or after a whole list of words: the trie that
    results is the same. *)
Theorem add_to_prefix_trie_comm :
  (∀ trie w1 w2,
      add_to_prefix_trie (add_to_prefix_trie trie w1) w2 =
      add_to_prefix_trie (add_to_prefix_trie trie w2) w1) ∧
  (∀ (l : list str) trie w,
      fold_left add_to_prefix_trie l (add_to_prefix_trie trie w) =
      add_to_prefix_trie (fold_left add_to_prefix_trie l trie) w).
Proof.
  split.
  - intros trie w1 w2. unfold add_to_prefix_trie.
    apply add_letters_comm. by intros ->.
  - intros l trie w. apply fold_add_comm.
Qed.

(** X2.  The trie of a dictionary is determined by the set of its words:
    two enumerations with the same elements, in any order and with any
    repetitions, build the same trie. *)
Theorem make_prefix_trie_same_words (D D' : list str) :
  (∀ w, w ∈ D ↔ w ∈ D') → make_prefix_trie D = make_prefix_trie D'.
Proof.
  intros HD. unfold make_prefix_trie.
  rewrite <- (fold_add_remove_dups D), <- (fold_add_remove_dups D').
  apply fold_add_Permutation.
  apply NoDup_Permutation; [apply NoDup_remove_dups..|].
  intros w. by rewrite !elem_of_remove_dups.
Qed.

Lemma make_prefix_trie_same_words_example :
  make_prefix_trie [lit "in"; lit "ini"; lit "is"] =
  make_prefix_trie [lit "is"; lit "in"; lit "ini"; lit "is"; lit "in"].
Proof.
  apply (make_prefix_trie_same_words [lit "in"; lit "ini"; lit "is"]
           [lit "is"; lit "in"; lit "ini"; lit "is"; lit "in"]).
  intros w. rewrite !elem_of_cons, !elem_of_nil. tauto.
Defined.

(** ** The nodes of a trie *)

Lemma walk_empty_dict p : is_Some (walk empty_dict p) ↔ p = [].
Proof.
  destruct p as [|c p]; cbn [walk empty_dict edges].
  - split; [done|]. by eauto.
  - rewrite lookup_empty. split; [by intros [? ?]|done].
Qed.

(** Adding a word creates the nodes along its letters and no other. *)
Lemma walk_add_letters trie letters w p :
  is_Some (walk (add_letters trie letters w) p) ↔
  is_Some (walk trie p) ∨ p `prefix_of` letters.
Proof.
  revert trie p. induction letters as [|c r IH]; intros trie p.
  - cbn [add_letters]. destruct p as [|c' q]; cbn [walk edges].
    + split; [left|]; by eauto.
    + split; [by left|]. intros [?|Hp]; [done|].
      by apply prefix_nil_inv in Hp.
  - rewrite add_letters_cons. destruct p as [|c' q]; cbn [walk edges].
    + split; [left|]; by eauto.
    + rewrite lookup_insert. destruct (decide (c = c')) as [->|Hne].
      * rewrite IH. unfold child.
        destruct (edges trie !! c') as [v|]; cbn [default].
        -- split; (intros [?|Hp]; [by left|right]).
           ++ by apply prefix_cons.
           ++ by eapply prefix_cons_inv_2.
        -- rewrite walk_empty_dict. split.
           ++ intros [->|Hp]; right; [|by apply prefix_cons].
              apply prefix_cons, prefix_nil.
           ++ intros [[? ?]|Hp]; [done|]. right. by eapply prefix_cons_inv_2.
      * split; [by left|]. intros [?|Hp]; [done|].
        apply prefix_cons_inv_1 in Hp. congruence.
Qed.

Lemma walk_fold_add (l : list str) trie p :
  is_Some (walk (fold_left add_to_prefix_trie l trie) p) ↔
  is_Some (walk trie p) ∨ ∃ w, w ∈ l ∧ p `prefix_of` w.
Proof.
  revert trie. induction l as [|x l IH]; intros trie; cbn [fold_left].
  - split; [by left|]. intros [?|(w & Hw & _)]; [done|].
    by apply elem_of_nil in Hw.
  - rewrite IH. unfold add_to_prefix_trie. rewrite walk_add_letters. split.
    + intros [[?|Hp]|(w & Hw & Hp)]; [by left|right..].
      * exists x. split; [by left|done].
      * exists w. split; [by right|done].
    + intros [?|(w & [->|Hw]%elem_of_cons & Hp)].
      * left. by left.
      * left. by right.
      * right. by exists w.
Qed.

(** X3.  The shape of the trie of a dictionary: there is a node at the end
    of a path exactly when the path is empty (the root) or a prefix of a
    word of the dictionary, so no branch leads nowhere; and the node holds
    under [''] the path itself when the path is a word of the dictionary,
    and nothing otherwise. *)
Theorem make_prefix_trie_shape (D : list str) (p : str) :
  (is_Some (walk (make_prefix_trie D) p) ↔
     p = [] ∨ ∃ w, w ∈ D ∧ p `prefix_of` w) ∧
  (∀ node, walk (make_prefix_trie D) p = Some node →
     (p ∈ D ∧ word node = Some p) ∨ ((p ∉ D) ∧ word node = None)).
Proof.
  split.
  - unfold make_prefix_trie. by rewrite walk_fold_add, walk_empty_dict.
  - intros node Hwalk. pose proof (mark_make_prefix_trie D p) as Hmark.
    unfold mark in Hmark. rewrite Hwalk in Hmark. cbn in Hmark.
    destruct (decide (p ∈ D)); [by left|by right].
Qed.

(** ** Adding a word, then asking for prefixes *)

(** X4.  For every trie, however it was built: after a word is added, a
    prefix query on a text that starts with the word yields the word; and
    adding a word that the text does not start with changes nothing of what
    the query yields for that text. *)
Theorem prefixes_of_add_to_prefix_trie trie (w text : str) :
  (w `prefix_of` text → w ∈ prefixes_of text (add_to_prefix_trie trie w)) ∧
  (¬ w `prefix_of` text →
   prefixes_of text (add_to_prefix_trie trie w) = prefixes_of text trie).
Proof.
  rewrite !prefixes_of_omap. split.
  - intros Hpre. apply list_elem_of_omap. exists w.
    split; [by apply elem_of_inits|].
    rewrite mark_add_to_prefix_trie. by rewrite decide_True.
  - intros Hpre. apply list_omap_ext, Forall2_same_length_lookup.
    split; [done|]. intros i p q Hp Hq. simplify_eq.
    rewrite mark_add_to_prefix_trie. rewrite decide_False; [done|].
    intros ->. apply Hpre, elem_of_inits. by eapply list_elem_of_lookup_2.
Qed.

(** ** The string that is returned *)

Lemma filter_no_space (w : list ascii) :
  " "%char ∉ w → filter (λ c : ascii, c ≠ " "%char) w = w.
Proof.
  induction w as [|c w IH]; [done|]. intros Hw.
  apply not_elem_of_cons in Hw as [Hc Hw].
  rewrite filter_cons, decide_True by done. by rewrite IH.
Qed.

Lemma filter_join_space (ws : list str) :
  Forall (λ w : str, " "%char ∉ w) ws →
  filter (λ c : ascii, c ≠ " "%char) (join (lit " ") ws) = concat ws.
Proof.
  induction 1 as [|w ws Hw Hws IH]; [done|].
  destruct ws as [|w' ws].
  - cbn [join concat]. rewrite app_nil_r. by apply filter_no_space.
  - change (join (lit " ") (w :: w' :: ws))
      with (w ++ lit " " ++ join (lit " ") (w' :: ws)).
    unfold str in *.
    rewrite !filter_app, IH, filter_no_space by done. done.
Qed.

(** The value returned by [recur(0)] is right. *)
Lemma search_ok (text : str) (D : list str) fuel chain :
  search fuel text D = Some (Some chain) →
  segmentation D (ChainLink_iter chain) text.
Proof.
  unfold search. intros Hrun.
  destruct (recur text (make_prefix_trie D) fuel 0 empty_memo)
    as [[r m]|] eqn:Hrec; [|done].
  cbn in Hrun. simplify_eq.
  by destruct (recur_ok text D fuel 0 empty_memo (Some chain) m)
    as [Hseg _]; [apply memo_ok_empty|done|].
Qed.

Lemma solution_recursive_search (text : str) (D : list str) fuel s :
  solution_recursive fuel text D = Some (Return (Some s)) →
  ∃ chain, search fuel text D = Some (Some chain) ∧ chain ≠ ChainNull ∧
           s = join (lit " ") (ChainLink_iter chain).
Proof.
  unfold solution_recursive, search. intros Hrun.
  destruct (recur text (make_prefix_trie D) fuel 0 empty_memo)
    as [[[chain|] m]|]; [|done|done].
  exists chain. split; [done|].
  destruct chain; [done|]. cbn [iter] in Hrun. by simplify_eq.
Qed.

(** X5.  When the text has no space in it, deleting the spaces from the
    string that the call returns gives the text back. *)
Theorem solution_recursive_without_spaces (text : str) (D : list str) fuel s :
  " "%char ∉ text →
  solution_recursive fuel text D = Some (Return (Some s)) →
  filter (λ c : ascii, c ≠ " "%char) s = text.
Proof.
  intros Hsp (chain & Hsearch & _ & ->)%solution_recursive_search.
  apply search_ok in Hsearch as [_ Hcat].
  rewrite filter_join_space; [done|].
  apply Forall_forall. intros w Hw Hc. apply Hsp. rewrite <- Hcat.
  apply list_elem_of_In, in_concat. exists w.
  split; by apply list_elem_of_In.
Qed.

Lemma solution_recursive_without_spaces_main :
  filter (λ c : ascii, c ≠ " "%char) (lit "in in is bar fish") = main_text.
Proof.
  apply (solution_recursive_without_spaces main_text main_words 14).
  - apply (bool_decide_unpack _). vm_compute. exact I.
  - vm_compute. reflexivity.
Defined.

(** ** Which segmentation is returned *)

Section FirstFit.
Variables (text : str) (D : list str).

Let trie := make_prefix_trie D.

Lemma memo_first_fit_empty : memo_first_fit text D empty_memo.
Proof. intros index chain. cbn. by rewrite lookup_empty. Qed.

Lemma memo_first_fit_store index result m :
  (∀ chain, result = Some chain → first_fit text D index chain) →
  memo_first_fit text D m → memo_first_fit text D (store index result m).
Proof.
  intros Hr Hm j chain. cbn. rewrite lookup_insert.
  destruct (decide (index = j)) as [->|Hne]; [|by apply Hm].
  intros [= ->]. by apply Hr.
Qed.

(** The loop returns the link for the first prefix whose rest has a
    solution; the prefixes before it have none. *)
Lemma try_prefixes_first_fit rec index prefixes m result m' :
  (∀ j m0 r0 m1,
      memo_ok text D m0 → memo_first_fit text D m0 →
      rec j m0 = Some (r0, m1) →
      result_ok text D j r0 ∧ memo_ok text D m1 ∧ memo_first_fit text D m1 ∧
      ∀ c, r0 = Some c → first_fit text D j c) →
  memo_ok text D m → memo_first_fit text D m →
  try_prefixes rec index prefixes m = Some (result, m') →
  memo_first_fit text D m' ∧
  ∀ chain, result = Some chain →
    ∃ before p after c,
      prefixes = before ++ p :: after ∧ chain = ChainLink p c ∧
      first_fit text D (index + length p) c ∧
      ∀ q, q ∈ before → result_ok text D (index + length q) None.
Proof.
  intros Hrec. revert m.
  induction prefixes as [|p rest IH]; intros m Hm Hff Hrun.
  - cbn in Hrun. simplify_eq. split; [done|]. by intros chain ?.
  - cbn [try_prefixes] in Hrun.
    destruct (rec (index + length p) m) as [[[suffix_solution|] m1]|]
      eqn:Hcall; [| |done].
    + simplify_eq. destruct (Hrec _ _ _ _ Hm Hff Hcall) as (_ & _ & Hff1 & Hc).
      split; [done|]. intros chain [= <-].
      exists [], p, rest, suffix_solution. split; [done|]. split; [done|].
      split; [by apply Hc|]. by intros q ?%elem_of_nil.
    + destruct (Hrec _ _ _ _ Hm Hff Hcall) as (Hnone & Hm1 & Hff1 & _).
      destruct (IH m1 Hm1 Hff1 Hrun) as [Hff' Hres]. split; [done|].
      intros chain Hchain.
      destruct (Hres chain Hchain) as (before & p' & after & c & -> & -> & Hc & Hb).
      exists (p :: before), p', after, c. split; [done|]. split; [done|].
      split; [done|]. intros q [->|Hq]%elem_of_cons; [done|]. by apply Hb.
Qed.

Lemma recur_first_fit fuel index m result m' :
  memo_ok text D m → memo_first_fit text D m →
  recur text trie fuel index m = Some (result, m') →
  memo_first_fit text D m' ∧
  ∀ chain, result = Some chain → first_fit text D index chain.
Proof.
  revert index m result m'.
  induction fuel as [|fuel IH]; intros index m result m' Hm Hff Hrun; [done|].
  cbn [recur] in Hrun.
  destruct (cache m !! index) as [cached|] eqn:Hget.
  { simplify_eq. split; [done|]. intros chain ->. by apply Hff. }
  destruct (recur_body text trie (recur text trie fuel) index m)
    as [[r m1]|] eqn:Hbody; [|done].
  simplify_eq. unfold recur_body in Hbody.
  destruct (drop index text) as [|c current] eqn:Hcur.
  - simplify_eq.
    assert (∀ chain, Some EMPTY = Some chain → first_fit text D index chain)
      as Hr by (by intros chain [= <-]).
    split; [by apply memo_first_fit_store|done].
  - rewrite <- Hcur in Hbody.
    apply try_prefixes_first_fit in Hbody as [Hff1 Hres]; [| |done|done].
    2:{ intros j m0 r0 m1' Hm0 Hff0 Hcall.
        destruct (recur_ok text D fuel j m0 r0 m1' Hm0 Hcall) as [Hr0 Hm1'].
        destruct (IH j m0 r0 m1' Hm0 Hff0 Hcall) as [Hff1' Hc]. done. }
    assert (∀ chain, result = Some chain → first_fit text D index chain)
      as Hr.
    { intros chain Hchain.
      destruct (Hres chain Hchain)
        as (before & p & after & suffix & Hsplit & -> & Hsuffix & Hbefore).
      assert (p ∈ prefixes_of (drop index text) trie) as Hp.
      { rewrite Hsplit. apply elem_of_app. right. by left. }
      apply elem_of_prefixes_of in Hp as [HpD Hpre].
      cbn [first_fit]. split; [done|]. split; [done|].
      split; [by rewrite Hcur|]. split; [|done].
      intros q HqD Hqpre Hlen.
      assert (q ∈ prefixes_of (drop index text) trie) as Hq
        by by apply elem_of_prefixes_of.
      assert (StronglySorted shorter (before ++ p :: after)) as Hsorted.
      { rewrite <- Hsplit. unfold trie.
        rewrite prefixes_of_make_prefix_trie.
        apply StronglySorted_filter, inits_sorted. }
      rewrite Hsplit in Hq.
      apply elem_of_app in Hq as [Hq|Hq]; [by apply Hbefore|].
      apply StronglySorted_app in Hsorted as (_ & _ & Hafter).
      apply StronglySorted_cons in Hafter as [Hafter _].
      rewrite Forall_forall in Hafter.
      apply elem_of_cons in Hq as [->|Hq]; [lia|].
      specialize (Hafter q Hq). unfold shorter in Hafter. lia. }
    split; [by apply memo_first_fit_store|done].
Qed.

(** A chain that takes the first fit everywhere comes before every
    segmentation of the same text. *)
Lemma first_fit_earlier chain index ws :
  Forall (λ w : str, w ≠ []) D →
  first_fit text D index chain → segmentation D ws (drop index text) →
  earlier (ChainLink_iter chain) ws.
Proof.
  intros HD. rewrite Forall_forall in HD. revert index ws.
  induction chain as [|p suffix IH]; intros index ws Hff [HwsD Hcat].
  - cbn in Hff. rewrite Hff in Hcat. left. cbn.
    destruct ws as [|w ws]; [done|].
    apply Forall_cons in HwsD as [Hw _]. specialize (HD w Hw).
    cbn in Hcat. by destruct w.
  - cbn [first_fit] in Hff. destruct Hff as (HpD & Hpre & Hne & Hmin & Hsuffix).
    destruct ws as [|w ws]; [by cbn in Hcat|].
    apply Forall_cons in HwsD as [Hw HwsD]. cbn [concat] in Hcat.
    assert (w `prefix_of` drop index text) as Hwpre by by eexists.
    assert (segmentation D ws (drop (index + length w) text)) as Hrest.
    { split; [done|]. apply drop_prefix_of in Hwpre.
      rewrite Hwpre in Hcat. by apply app_inv_head in Hcat. }
    cbn [ChainLink_iter].
    destruct (Nat.lt_trichotomy (length w) (length p)) as [Hlt|[Heq|Hgt]].
    + by destruct (Hmin w Hw Hwpre Hlt ws).
    + assert (w = p) as ->.
      { destruct Hpre as [k1 Hk1], Hwpre as [k2 Hk2].
        rewrite Hk1 in Hk2. by apply app_inj_1 in Hk2 as [-> _]. }
      destruct (IH _ _ Hsuffix Hrest)
        as [->|(common & a & b & r1 & r2 & -> & -> & Hab)]; [by left|].
      right. by exists (p :: common), a, b, r1, r2.
    + right. by exists [], p, w, (ChainLink_iter suffix), ws.
Qed.
End FirstFit.

(** X6.  Which segmentation is returned when there are several.  For a
    dictionary of non-empty words, the chain that [recur(0)] returns is a
    segmentation of the text that takes at every position the shortest word
    after which the rest can still be segmented; it comes before every
    other segmentation of the text: at the first word where the two
    differ, the chain has the shorter one. *)
Theorem search_returns_first_segmentation (text : str) (D : list str)
    fuel chain :
  Forall (λ w : str, w ≠ []) D →
  search fuel text D = Some (Some chain) →
  segmentation D (ChainLink_iter chain) text ∧
  first_fit text D 0 chain ∧
  ∀ ws, segmentation D ws text → earlier (ChainLink_iter chain) ws.
Proof.
  intros HD Hsearch. split; [by eapply search_ok|].
  assert (first_fit text D 0 chain) as Hff.
  { unfold search in Hsearch.
    destruct (recur text (make_prefix_trie D) fuel 0 empty_memo)
      as [[r m]|] eqn:Hrec; [|done].
    cbn in Hsearch. simplify_eq.
    destruct (recur_first_fit text D fuel 0 empty_memo (Some chain) m)
      as [_ Hc]; [apply memo_ok_empty|apply memo_first_fit_empty|done|].
    by apply Hc. }
  split; [done|]. intros ws Hws.
  by apply (first_fit_earlier text D chain 0 ws HD Hff).
Qed.

Lemma search_returns_first_segmentation_abcd :
  let D := [lit "a"; lit "abc"; lit "ab"; lit "cd"; lit "d"] in
  let chain := ChainLink (lit "ab") (ChainLink (lit "cd") EMPTY) in
  segmentation D (ChainLink_iter chain) (lit "abcd") ∧
  first_fit (lit "abcd") D 0 chain ∧
  ∀ ws, segmentation D ws (lit "abcd") → earlier (ChainLink_iter chain) ws.
Proof.
  apply (search_returns_first_segmentation (lit "abcd")
           [lit "a"; lit "abc"; lit "ab"; lit "cd"; lit "d"] 5
           (ChainLink (lit "ab") (ChainLink (lit "cd") EMPTY))).
  - vm_compute. repeat constructor; discriminate.
  - vm_compute. reflexivity.
Defined.



(** ** The empty word *)

(** X8.  With the empty string among the words, [recur] called for an index
    inside the text that is not cached calls itself for the same index
    before anything is cached: it never returns, whatever the fuel, and so
    the call on a text of at least one character never returns either. *)
Theorem empty_word_recursion_never_returns (D : list str) (text : str) fuel :
  [] ∈ D →
  (∀ index m, index < length text → cache m !! index = None →
     recur text (make_prefix_trie D) fuel index m = None) ∧
  (text ≠ [] → solution_recursive fuel text D = None).
Proof.
  intros Hin.
  assert (∀ index m, index < length text → cache m !! index = None →
            recur text (make_prefix_trie D) fuel index m = None) as Hloop.
  { intros index m Hlt Hmiss.
    induction fuel as [|fuel IH]; [done|].
    cbn [recur]. rewrite Hmiss. unfold recur_body.
    destruct (drop index text) as [|c rest] eqn:Hcur.
    { apply (f_equal length) in Hcur. rewrite length_drop in Hcur.
      cbn in Hcur. lia. }
    destruct (head_prefixes_of_empty_word D (c :: rest) Hin) as [_ Hhead].
    destruct (prefixes_of (c :: rest) (make_prefix_trie D)) as [|p ps];
      [done|].
    cbn in Hhead. simplify_eq. cbn [try_prefixes length].
    by rewrite Nat.add_0_r, IH. }
  split; [done|]. intros Hne. unfold solution_recursive.
  rewrite Hloop; [done| |done]. destruct text; [done|]. cbn. lia.
Qed.

Lemma empty_word_recursion_never_returns_example :
  (∀ index m, index < length (lit "ab") → cache m !! index = None →
     recur (lit "ab") (make_prefix_trie [lit "a"; lit ""; lit "b"]) 1000
       index m = None) ∧
  (lit "ab" ≠ [] →
   solution_recursive 1000 (lit "ab") [lit "a"; lit ""; lit "b"] = None).
Proof.
  apply (empty_word_recursion_never_returns [lit "a"; lit ""; lit "b"]
           (lit "ab") 1000).
  vm_compute. apply list_elem_of_further, list_elem_of_here.
Defined.

(** ** The positions the search visits *)

Lemma take_prefix_of_drop (p text : str) i :
  p `prefix_of` drop i text → take (i + length p) text = take i text ++ p.
Proof.
  intros [k Hk]. rewrite <- take_take_drop, Hk. by rewrite take_app_length.
Qed.

Lemma segmentation_snoc (D ws : list str) (t p : str) :
  segmentation D ws t → p ∈ D → segmentation D (ws ++ [p]) (t ++ p).
Proof.
  intros [Hws <-] Hp. split.
  - apply Forall_app. split; [done|]. by constructor.
  - rewrite concat_app. cbn. by rewrite app_nil_r.
Qed.

Section Reached.
Variables (text : str) (D : list str).

Let trie := make_prefix_trie D.

Lemma memo_reached_store index result m :
  (∃ ws, segmentation D ws (take index text)) →
  memo_reached text D m → memo_reached text D (store index result m).
Proof.
  intros Hi Hm k. cbn. rewrite lookup_insert.
  destruct (decide (index = k)) as [->|Hne]; [done|]. apply Hm.
Qed.

Lemma try_prefixes_reached rec index prefixes m result m' :
  (∀ j m0 r0 m1,
      (∃ ws, segmentation D ws (take j text)) → memo_reached text D m0 →
      rec j m0 = Some (r0, m1) → memo_reached text D m1) →
  (∃ ws, segmentation D ws (take index text)) →
  (∀ p, p ∈ prefixes → p ∈ D ∧ p `prefix_of` drop index text) →
  memo_reached text D m →
  try_prefixes rec index prefixes m = Some (result, m') →
  memo_reached text D m'.
Proof.
  intros Hrec [ws Hws]. revert m.
  induction prefixes as [|p rest IH]; intros m Hps Hm Hrun.
  - cbn in Hrun. by simplify_eq.
  - cbn [try_prefixes] in Hrun.
    destruct (Hps p) as [HpD Hpre]; [by left|].
    assert (∃ ws', segmentation D ws' (take (index + length p) text)) as Hj.
    { exists (ws ++ [p]). rewrite take_prefix_of_drop by done.
      by apply segmentation_snoc. }
    destruct (rec (index + length p) m) as [[[suffix_solution|] m1]|]
      eqn:Hcall; [| |done].
    + simplify_eq. by eapply Hrec.
    + apply (IH m1); [|by eapply Hrec|done].
      intros q Hq. apply Hps. by right.
Qed.

Lemma recur_reached fuel index m result m' :
  (∃ ws, segmentation D ws (take index text)) →
  memo_reached text D m →
  recur text trie fuel index m = Some (result, m') →
  memo_reached text D m'.
Proof.
  revert index m result m'.
  induction fuel as [|fuel IH]; intros index m result m' Hi Hm Hrun; [done|].
  cbn [recur] in Hrun.
  destruct (cache m !! index) as [cached|]; [by simplify_eq|].
  destruct (recur_body text trie (recur text trie fuel) index m)
    as [[r m1]|] eqn:Hbody; [|done].
  simplify_eq. apply memo_reached_store; [done|].
  unfold recur_body in Hbody.
  destruct (drop index text) as [|c current] eqn:Hcur; [by simplify_eq|].
  rewrite <- Hcur in Hbody.
  eapply try_prefixes_reached; [exact IH|done| |done|exact Hbody].
  intros p Hp. by apply elem_of_prefixes_of.
Qed.
End Reached.

(** X9.  The search only visits positions that can be reached with words:
    for a dictionary of non-empty words, every index for which the body of
    [recur] ran during [recur(0)] is the end of a part of the text that
    has a segmentation. *)
Theorem recur_visits_reachable_positions (text : str) (D : list str) fuel :
  Forall (λ w : str, w ≠ []) D → length text < fuel →
  ∃ result m,
    recur text (make_prefix_trie D) fuel 0 empty_memo = Some (result, m) ∧
    ∀ k, k ∈ computed m → ∃ ws, segmentation D ws (take k text).
Proof.
  intros HD Hfuel.
  destruct (recur_from_start text D fuel HD Hfuel)
    as (result & m & Hrun & _ & [_ Hkeys] & _).
  exists result, m. split; [done|]. intros k Hk%Hkeys.
  eapply (recur_reached text D fuel 0 empty_memo); [| |exact Hrun|done].
  - exists []. by split.
  - intros j. cbn. rewrite lookup_empty. by intros [? ?].
Qed.

Lemma recur_visits_reachable_positions_main :
  ∃ result m,
    recur main_text (make_prefix_trie main_words) 14 0 empty_memo =
      Some (result, m) ∧
    ∀ k, k ∈ computed m → ∃ ws, segmentation main_words ws (take k main_text).
Proof.
  apply (recur_visits_reachable_positions main_text main_words 14).
  - vm_compute. repeat constructor; discriminate.
  - vm_compute. lia.
Defined.

(** ** The length of the string that is returned *)




(** ** A longer text *)

Lemma prefixes_loop_app (text more : str) trie :
  prefixes_loop text trie `prefix_of` prefixes_loop (text ++ more) trie.
Proof.
  revert trie. induction text as [|c rest IH]; intros trie.
  - apply prefix_nil.
  - cbn [app prefixes_loop]. destruct (edges trie !! c) as [trie'|]; [|done].
    apply prefix_app, IH.
Qed.

(** X11.  For every trie, what a prefix query yields for a text is the
    beginning of what it yields for any longer text that starts with it:
    more text only adds values after those already yielded. *)
Theorem prefixes_of_app (text more : str) trie :
  prefixes_of text trie `prefix_of` prefixes_of (text ++ more) trie.
Proof. unfold prefixes_of. apply prefix_app, prefixes_loop_app. Qed.
